(** * The [sample] operator (src/internal/operators/sample.ts)

    A shallow embedding of [SampleOperator] and [SampleSubscriber]: the
    subscriber is a record of its fields, every method is a computation in
    a small monad that threads the subscriber and collects the calls made
    on [this.destination], and a subscription is the sequence of signals
    the two upstream producers deliver to it. *)

From Stdlib Require Import List Bool ZArith Lia.
Import ListNotations.

Set Implicit Arguments.

(** A JavaScript value of static type [A | undefined | null]. *)
Inductive js (A : Type) : Type :=
| undefined : js A
| null : js A
| val (a : A) : js A.

Arguments undefined {A}.
Arguments null {A}.

(** ** The subscriber, its destination and its methods *)

Section Model.

Variables T N E : Type.

(** What the downstream consumer is called with. *)
Inductive Notification : Type :=
| Next (v : js T)
| Error (e : E)
| Complete.

(** [SampleSubscriber]: the two private fields of sample.ts lines 70-71.

    Modelled from the spec: the fields [terminated] and [notifierEnded]
    stand for the state the class inherits from [Subscriber] and from the
    nested subscription made by [innerSubscribe], which are not under
    src/: the spec's Terminal state of the combinator, and the end of the
    notifier subscription after the notifier completed. *)
Record SampleSubscriber : Type := mkSampleSubscriber {
  value : js T;
  hasValue : bool;
  terminated : bool;
  notifierEnded : bool
}.

(** [new SampleSubscriber(subscriber)]: [value] is left undefined and
    [hasValue] is initialised to false. *)
Definition newSampleSubscriber : SampleSubscriber :=
  {| value := undefined; hasValue := false;
     terminated := false; notifierEnded := false |}.

Definition set_value (v : js T) (this : SampleSubscriber) : SampleSubscriber :=
  {| value := v; hasValue := hasValue this;
     terminated := terminated this; notifierEnded := notifierEnded this |}.

Definition set_hasValue (b : bool) (this : SampleSubscriber) : SampleSubscriber :=
  {| value := value this; hasValue := b;
     terminated := terminated this; notifierEnded := notifierEnded this |}.

Definition set_terminated (b : bool) (this : SampleSubscriber) : SampleSubscriber :=
  {| value := value this; hasValue := hasValue this;
     terminated := b; notifierEnded := notifierEnded this |}.

Definition set_notifierEnded (b : bool) (this : SampleSubscriber) : SampleSubscriber :=
  {| value := value this; hasValue := hasValue this;
     terminated := terminated this; notifierEnded := b |}.

(** A method body: it reads and writes [this] and calls the destination;
    the calls that reach the downstream consumer are collected in order. *)
Definition M (A : Type) : Type :=
  SampleSubscriber -> A * SampleSubscriber * list Notification.

Definition ret (A : Type) (a : A) : M A := fun this => (a, this, []).

Definition bind (A B : Type) (m : M A) (k : A -> M B) : M B :=
  fun this =>
    let '(a, this1, out1) := m this in
    let '(b, this2, out2) := k a this1 in
    (b, this2, out1 ++ out2).

Definition gets (A : Type) (field : SampleSubscriber -> A) : M A :=
  fun this => (field this, this, []).

Definition modify (f : SampleSubscriber -> SampleSubscriber) : M unit :=
  fun this => (tt, f this, []).

Definition tell (out : list Notification) : M unit :=
  fun this => (tt, this, out).

Definition stateOf (A : Type) (r : A * SampleSubscriber * list Notification)
  : SampleSubscriber := snd (fst r).

Definition outputOf (A : Type) (r : A * SampleSubscriber * list Notification)
  : list Notification := snd r.

Local Notation "x <- m ;; k" := (bind m (fun x => k))
  (at level 61, m at next level, right associativity).
Local Notation "m ;; k" := (bind m (fun _ => k))
  (at level 61, right associativity).

(** [this.destination]: the downstream subscriber, an opaque sink with
    the three callbacks of a consumer. A callback is itself a method body,
    so a consumer may call back into the subscriber while it is being
    called. *)
Record Destination : Type := mkDestination {
  next : js T -> M unit;
  error : E -> M unit;
  complete : M unit
}.

(** The consumer that only records what it is called with. *)
Definition recorder : Destination :=
  {| next := fun v => tell [Next v];
     error := fun e => tell [Error e];
     complete := tell [Complete] |}.

Section Methods.

Variable destination : Destination.

(** sample.ts lines 73-76. *)
Definition _next (v : js T) : M unit :=
  modify (set_value v) ;;
  modify (set_hasValue true).

(** sample.ts lines 86-91. *)
Definition emitValue : M unit :=
  has <- gets hasValue ;;
  if has then
    modify (set_hasValue false) ;;
    (v <- gets value ;;
     next destination v)
  else ret tt.

(** sample.ts lines 78-80. *)
Definition notifyNext : M unit := emitValue.

(** sample.ts lines 82-84. *)
Definition notifyComplete : M unit := emitValue.

(** Modelled from the spec: [notifyError], inherited from
    [SimpleOuterSubscriber] (not under src/). "An error from either the
    source or the notifier producer is forwarded to the downstream
    consumer and terminates the whole combinator." *)
Definition notifyError (e : E) : M unit :=
  modify (set_terminated true) ;;
  error destination e.

(** Modelled from the spec: [_error], inherited from [Subscriber] (not
    under src/). "Source error ... is forwarded to the downstream consumer
    with standard propagation (error terminates immediately)". *)
Definition _error (e : E) : M unit :=
  modify (set_terminated true) ;;
  error destination e.

(** Modelled from the spec: [_complete], inherited from [Subscriber] (not
    under src/). "Source ... completion is forwarded to the downstream
    consumer with standard propagation"; by the glossary a producer
    delivers nothing after its "complete", so the output is over. *)
Definition _complete : M unit :=
  modify (set_terminated true) ;;
  complete destination.

(** The signals the two upstream producers deliver to the subscriber. *)
Inductive Signal : Type :=
| SourceNext (v : js T)
| SourceError (e : E)
| SourceComplete
| NotifierNext (n : N)
| NotifierError (e : E)
| NotifierComplete.

(** Modelled from the spec: the routing done by [Subscriber] and by the
    [SimpleInnerSubscriber] of [innerSubscribe] (not under src/). A source
    signal reaches [_next], [_error] or [_complete] until the combinator
    is in its Terminal state; a notifier signal reaches [notifyNext],
    [notifyError] or [notifyComplete] while the notifier subscription is
    alive, the value of a notifier "next" being dropped on the way; after
    the notifier's completion "the notifier subscription ends". The test
    of the Terminal state on a notifier signal stands for the teardown of
    the nested subscription with the combinator; what the notifier
    delivers while [call] is still subscribing to it is routed by
    [routeInner] below, which has no such test. *)
Definition deliver (s : Signal) : M unit :=
  stopped <- gets terminated ;;
  ended <- gets notifierEnded ;;
  match s with
  | SourceNext v => if stopped then ret tt else _next v
  | SourceError e => if stopped then ret tt else _error e
  | SourceComplete => if stopped then ret tt else _complete
  | NotifierNext _ => if stopped || ended then ret tt else notifyNext
  | NotifierError e => if stopped || ended then ret tt else notifyError e
  | NotifierComplete =>
      if stopped || ended then ret tt
      else notifyComplete ;; modify (set_notifierEnded true)
  end.

Fixpoint deliverAll (tr : list Signal) : M unit :=
  match tr with
  | [] => ret tt
  | s :: tr' => deliver s ;; deliverAll tr'
  end.

(** Modelled from the spec: a producer ([Observable], not under src/),
    as far as [call] can tell: the signals it delivers to its subscriber
    before [subscribe] returns ("a notifier that fires instantly upon
    subscription"). What it delivers later arrives as [Signal]s. *)
Inductive Emission (A : Type) : Type :=
| emitNext (a : A)
| emitError (e : E)
| emitComplete.

Record Observable (A : Type) : Type := mkObservable {
  onSubscribe : list (Emission A)
}.

Definition fromSource (m : Emission (js T)) : Signal :=
  match m with
  | emitNext v => SourceNext v
  | emitError _ e => SourceError e
  | emitComplete _ => SourceComplete
  end.

(** [source.subscribe(sampleSubscriber)]. *)
Definition subscribe (source : Observable (js T)) : M unit :=
  deliverAll (map fromSource (onSubscribe source)).

(** Modelled from the spec: the routing done by the new
    [SimpleInnerSubscriber] that [call] hands to [innerSubscribe] (not
    under src/): the utility "routes its next/complete/error signals into
    designated callback methods on a given owner object". The inner
    subscriber is new when the notifier is subscribed to and tests no
    state of its owner, so what the notifier delivers while it is being
    subscribed to reaches [notifyNext], [notifyError] or [notifyComplete]
    whether or not the source has terminated by then; by the glossary a
    producer delivers nothing after its error or its completion, so
    nothing is routed after either. *)
Definition routeInner (m : Emission N) : M unit :=
  ended <- gets notifierEnded ;;
  if ended then ret tt
  else
    match m with
    | emitNext _ => notifyNext
    | emitError _ e => notifyError e ;; modify (set_notifierEnded true)
    | emitComplete _ => notifyComplete ;; modify (set_notifierEnded true)
    end.

Fixpoint routeInnerAll (ms : list (Emission N)) : M unit :=
  match ms with
  | [] => ret tt
  | m :: ms' => routeInner m ;; routeInnerAll ms'
  end.

(** [innerSubscribe(this.notifier, new SimpleInnerSubscriber(sampleSubscriber))]. *)
Definition innerSubscribe (notifier : Observable N) : M unit :=
  routeInnerAll (onSubscribe notifier).

(** sample.ts lines 56-61, [SampleOperator.call]: a new subscriber
    subscribes to the source, then to the notifier. *)
Definition call (notifier : Observable N) (source : Observable (js T))
  : unit * SampleSubscriber * list Notification :=
  let sampleSubscriber := newSampleSubscriber in
  (subscribe source ;; innerSubscribe notifier) sampleSubscriber.

End Methods.

End Model.

Arguments Next {T E} v.
Arguments Error {T E} e.
Arguments Complete {T E}.
Arguments SourceNext {T N E} v.
Arguments SourceError {T N E} e.
Arguments SourceComplete {T N E}.
Arguments NotifierNext {T N E} n.
Arguments NotifierError {T N E} e.
Arguments NotifierComplete {T N E}.
Arguments emitNext {E A} a.
Arguments emitError {E A} e.
Arguments emitComplete {E A}.
Arguments mkObservable {E A} onSubscribe.
Arguments newSampleSubscriber {T}.
Arguments recorder {T E}.
Arguments ret {T E A} a _.
Arguments tell {T E} out _.

(** ** Subscriptions as runs, and what is observed of them *)

Section Runs.

Variables T N E : Type.

Definition Subscriber : Type := SampleSubscriber T.
Definition Output : Type := list (Notification T E).
Definition Trace : Type := list (Signal T N E).

(** The signals [tr] delivered in order to [this], the downstream
    consumer being the recorder. *)
Definition runFrom (this : Subscriber) (tr : Trace) : unit * Subscriber * Output :=
  deliverAll recorder tr this.

(** A subscription from its start: a new subscriber receives [tr]. *)
Definition after (tr : Trace) : Subscriber := stateOf (runFrom newSampleSubscriber tr).
Definition downstream (tr : Trace) : Output := outputOf (runFrom newSampleSubscriber tr).

(** The values of the "next" calls among downstream calls. *)
Fixpoint nexts (out : Output) : list (js T) :=
  match out with
  | [] => []
  | Next v :: out' => v :: nexts out'
  | _ :: out' => nexts out'
  end.

(** The values the source delivers in a trace. *)
Fixpoint sourceValues (tr : Trace) : list (js T) :=
  match tr with
  | [] => []
  | SourceNext v :: tr' => v :: sourceValues tr'
  | _ :: tr' => sourceValues tr'
  end.

(** The errors the two producers signal in a trace. *)
Fixpoint upstreamErrors (tr : Trace) : list E :=
  match tr with
  | [] => []
  | SourceError e :: tr' => e :: upstreamErrors tr'
  | NotifierError e :: tr' => e :: upstreamErrors tr'
  | _ :: tr' => upstreamErrors tr'
  end.


(** What can be seen of a subscription at the boundary of the
    subscriber: a source value going in, a value going out. *)
Inductive Observation : Type :=
| Received (v : js T)
| Forwarded (v : js T).

Definition observe (s : Signal T N E) (out : Output) : list Observation :=
  match s with
  | SourceNext v => [Received v]
  | _ => []
  end ++ map Forwarded (nexts out).

Fixpoint history (tr : Trace) (this : Subscriber) : list Observation :=
  match tr with
  | [] => []
  | s :: tr' =>
      let r := deliver recorder s this in
      observe s (outputOf r) ++ history tr' (stateOf r)
  end.

(** In the spec's words: the source values "received since the
    subscription began (or since the last emission)" and "not yet
    forwarded downstream", oldest first. This is the bookkeeping of the
    invariant, not a field of the code. *)
Definition pendingStep (q : list (js T)) (o : Observation) : list (js T) :=
  match o with
  | Received v => q ++ [v]
  | Forwarded _ => []
  end.

Definition pending (h : list Observation) : list (js T) :=
  fold_left pendingStep h [].

(** The invariant of the latch, relating the two fields to the history. *)
Definition Latch (this : Subscriber) (h : list Observation) : Prop :=
  (hasValue this = true <-> pending h <> []) /\
  (hasValue this = true -> exists older, pending h = older ++ [value this]).

(** The downstream calls made while handling the notifier's completion
    signals of a trace. *)
Fixpoint completionFlushes (tr : Trace) (this : Subscriber) : Output :=
  match tr with
  | [] => []
  | s :: tr' =>
      let r := deliver recorder s this in
      match s with
      | NotifierComplete => outputOf r
      | _ => []
      end ++ completionFlushes tr' (stateOf r)
  end.

(** A downstream consumer that, inside its "next" callback, has the
    notifier tick again, [depth] levels deep, before it returns. *)
Fixpoint reentrant (depth : nat) : Destination T E :=
  {| next := fun v =>
       bind (tell [Next v])
            (fun _ => match depth with
                      | 0 => ret tt
                      | S d => notifyNext (reentrant d)
                      end);
     error := fun e => tell [Error e];
     complete := tell [Complete] |}.

(** A whole subscription: [call], then the signals that arrive later. *)
Definition subscription (notifier : Observable E N) (source : Observable E (js T))
  (later : Trace) : unit * Subscriber * Output :=
  let '(_, this, out) := call recorder notifier source in
  let '(_, this', out') := runFrom this later in
  (tt, this', out ++ out').

(** What a subscriber handles over a whole subscription: what the
    notifier delivers while [call] subscribes to it is routed by the inner
    subscriber, every other signal is delivered to the subscriber. *)
Inductive Event : Type :=
| AtSubscription (m : Emission E N)
| Delivered (s : Signal T N E).

Definition handle (ev : Event) : M T E unit :=
  match ev with
  | AtSubscription m => routeInner recorder m
  | Delivered s => deliver recorder s
  end.

Fixpoint handleAll (evs : list Event) : M T E unit :=
  match evs with
  | [] => ret tt
  | ev :: evs' => bind (handle ev) (fun _ => handleAll evs')
  end.

(** The events of a whole subscription, in the order [call] and the
    later deliveries have them handled. *)
Definition eventsOf (notifier : Observable E N) (source : Observable E (js T))
  (later : Trace) : list Event :=
  map Delivered (map (@fromSource T N E) (onSubscribe source)) ++
  map AtSubscription (onSubscribe notifier) ++
  map Delivered later.

(** The values the source delivers among some events. *)
Fixpoint deliveredValues (evs : list Event) : list (js T) :=
  match evs with
  | [] => []
  | Delivered (SourceNext v) :: evs' => v :: deliveredValues evs'
  | _ :: evs' => deliveredValues evs'
  end.


End Runs.

Arguments Received {T} v.
Arguments Forwarded {T} v.
Arguments AtSubscription {T N E} m.
Arguments Delivered {T N E} s.

(** A signal with the value of a notifier "next" forgotten: what is left
    is the occurrence of the tick. *)
Definition occurrence (T N E : Type) (s : Signal T N E) : Signal T unit E :=
  match s with
  | SourceNext v => SourceNext v
  | SourceError e => SourceError e
  | SourceComplete => SourceComplete
  | NotifierNext _ => NotifierNext tt
  | NotifierError e => NotifierError e
  | NotifierComplete => NotifierComplete
  end.

(** Two producers used in the examples: a source that delivers its
    current value while it is being subscribed to and stays open, and a
    notifier that ticks once while it is being subscribed to. *)
Definition currentValue (E : Type) (z : Z) : Observable E (js Z) :=
  mkObservable [emitNext (val z)].

Definition tickNow (E : Type) : Observable E unit :=
  mkObservable [emitNext tt].

Definition silent (E A : Type) : Observable E A :=
  mkObservable [].

(** Concrete subscriptions used in the examples: values are integers,
    the notifier carries nothing of interest, errors are numbered. *)
Definition threeValuesThenTick : list (Signal Z unit nat) :=
  [SourceNext (val 1%Z); SourceNext (val 2%Z); SourceNext (val 3%Z);
   NotifierNext tt].

Definition timeline : list (Signal Z unit nat) :=
  [SourceNext (val 1%Z); NotifierNext tt; SourceNext (val 2%Z);
   NotifierNext tt].

Definition latchedUndefined : list (Signal Z unit nat) :=
  [SourceNext (val 1%Z); SourceNext (val 2%Z); NotifierNext tt;
   SourceNext undefined].

Definition ticksOnly : list (Signal Z unit nat) :=
  [NotifierNext tt; NotifierNext tt].


Definition latched (z : Z) : SampleSubscriber Z :=
  {| value := val z; hasValue := true;
     terminated := false; notifierEnded := false |}.

Definition ticksOfNumbers : list (Signal Z nat nat) :=
  [SourceNext (val 1%Z); NotifierNext 10; SourceNext (val 2%Z);
   NotifierNext 20; NotifierComplete].

Definition ticksOfFlags : list (Signal Z bool nat) :=
  [SourceNext (val 1%Z); NotifierNext true; SourceNext (val 2%Z);
   NotifierNext false; NotifierComplete].

(** ** Sequences of method calls *)

Section Calls.

Variables T E : Type.

(** The methods sample.ts defines on [SampleSubscriber], as calls made
    on one subscriber from outside, whoever makes them. *)
Inductive MethodCall : Type :=
| call_next (v : js T)
| call_notifyNext
| call_notifyComplete
| call_emitValue.

Definition invoke (destination : Destination T E) (c : MethodCall) : M T E unit :=
  match c with
  | call_next v => @_next T E v
  | call_notifyNext => notifyNext destination
  | call_notifyComplete => notifyComplete destination
  | call_emitValue => emitValue destination
  end.

Fixpoint invokeAll (destination : Destination T E) (cs : list MethodCall)
  : M T E unit :=
  match cs with
  | [] => ret tt
  | c :: cs' => bind (invoke destination c) (fun _ => invokeAll destination cs')
  end.

(** The values handed to [_next] in a sequence of calls. *)
Fixpoint received (cs : list MethodCall) : list (js T) :=
  match cs with
  | [] => []
  | call_next v :: cs' => v :: received cs'
  | _ :: cs' => received cs'
  end.

(** The calls that run the emission routine. *)
Definition isSampling (c : MethodCall) : bool :=
  match c with
  | call_next _ => false
  | _ => true
  end.

Definition samplings (cs : list MethodCall) : nat :=
  length (filter isSampling cs).

(** The documentation of [sample] in sample.ts (lines 18-21), as a
    function of the calls alone: at every sampling the operator "emits
    whichever value it has most recently emitted since the previous
    sampling, unless the source has not emitted anything since the
    previous sampling". [sincePrevious] keeps all the values received
    since the previous sampling, oldest first. *)
Fixpoint documentedSampling (sincePrevious : list (js T)) (cs : list MethodCall)
  : list (js T) :=
  match cs with
  | [] => []
  | call_next v :: cs' => documentedSampling (sincePrevious ++ [v]) cs'
  | _ :: cs' =>
      match sincePrevious with
      | [] => documentedSampling [] cs'
      | _ :: _ => last sincePrevious undefined :: documentedSampling [] cs'
      end
  end.

(** A downstream consumer that, inside its "next" callback, has the
    source deliver [w] to the subscriber before it returns. *)
Definition feedback (w : js T) : Destination T E :=
  {| next := fun v => bind (tell [Next v]) (fun _ => @_next T E w);
     error := fun e => tell [Error e];
     complete := tell [Complete] |}.

End Calls.

Arguments call_next {T} v.
Arguments call_notifyNext {T}.
Arguments call_notifyComplete {T}.
Arguments call_emitValue {T}.

(** [Subsequence l1 l2]: [l1] is [l2] with some elements left out, the
    others in the same order. *)
Inductive Subsequence (A : Type) : list A -> list A -> Prop :=
| sub_nil (l : list A) : Subsequence [] l
| sub_skip (x : A) (l1 l2 : list A) :
    Subsequence l1 l2 -> Subsequence l1 (x :: l2)
| sub_keep (x : A) (l1 l2 : list A) :
    Subsequence l1 l2 -> Subsequence (x :: l1) (x :: l2).

(** Sequences of calls used in the examples. *)
Definition twoRounds : list (MethodCall Z) :=
  [call_next (val 1%Z); call_next (val 2%Z); call_notifyNext;
   call_emitValue; call_next (val 3%Z)].

(** ** Proof steps shared by the development *)

Ltac unfold_methods :=
  unfold deliver, _next, emitValue, notifyNext, notifyComplete, notifyError,
    _error, _complete, bind, ret, gets, modify, tell, stateOf, outputOf,
    set_value, set_hasValue, set_terminated, set_notifierEnded in *;
  cbn in *.

(** Every case of one delivery to a subscriber whose fields are known. *)
Ltac step_cases this s :=
  destruct this as [? [|] [|] [|]]; destruct s; unfold_methods.

(** ** Properties *)

Unset Implicit Arguments.

Section Properties.

Variables T N E : Type.

Implicit Types (this : SampleSubscriber T) (tr : list (Signal T N E)).
Implicit Types (s : Signal T N E) (out : list (Notification T E)).

Lemma stateOf_cons this s tr :
  stateOf (runFrom this (s :: tr)) =
  stateOf (runFrom (stateOf (deliver recorder s this)) tr).
Proof.
  unfold runFrom. cbn [deliverAll]. unfold bind at 1.
  destruct (deliver recorder s this) as [[u this1] out1].
  change (stateOf (u, this1, out1)) with this1.
  destruct (deliverAll recorder tr this1) as [[u' this2] out2].
  reflexivity.
Qed.

Lemma outputOf_cons this s tr :
  outputOf (runFrom this (s :: tr)) =
  outputOf (deliver recorder s this) ++
  outputOf (runFrom (stateOf (deliver recorder s this)) tr).
Proof.
  unfold runFrom. cbn [deliverAll]. unfold bind at 1.
  destruct (deliver recorder s this) as [[u this1] out1].
  change (stateOf (u, this1, out1)) with this1.
  destruct (deliverAll recorder tr this1) as [[u' this2] out2].
  reflexivity.
Qed.

Lemma stateOf_app tr1 : forall this tr2,
  stateOf (runFrom this (tr1 ++ tr2)) =
  stateOf (runFrom (stateOf (runFrom this tr1)) tr2).
Proof.
  induction tr1 as [|s tr1 IH]; intros this tr2.
  - reflexivity.
  - cbn [app]. rewrite !stateOf_cons. apply IH.
Qed.

Lemma outputOf_app tr1 : forall this tr2,
  outputOf (runFrom this (tr1 ++ tr2)) =
  outputOf (runFrom this tr1) ++
  outputOf (runFrom (stateOf (runFrom this tr1)) tr2).
Proof.
  induction tr1 as [|s tr1 IH]; intros this tr2.
  - reflexivity.
  - cbn [app]. rewrite !outputOf_cons, stateOf_cons, IH.
    now rewrite app_assoc.
Qed.

Lemma stateOf_single this s :
  stateOf (runFrom this [s]) = stateOf (deliver recorder s this).
Proof. now rewrite stateOf_cons. Qed.

Lemma outputOf_single this s :
  outputOf (runFrom this [s]) = outputOf (deliver recorder s this).
Proof. rewrite outputOf_cons. apply app_nil_r. Qed.

Lemma after_snoc tr s :
  after (tr ++ [s]) = stateOf (deliver recorder s (after tr)).
Proof. unfold after. now rewrite stateOf_app, stateOf_single. Qed.

Lemma downstream_snoc tr s :
  downstream (tr ++ [s]) =
  downstream tr ++ outputOf (deliver recorder s (after tr)).
Proof. unfold downstream, after. now rewrite outputOf_app, outputOf_single. Qed.


Lemma sourceValues_app tr1 tr2 :
  sourceValues (tr1 ++ tr2) = sourceValues tr1 ++ sourceValues tr2.
Proof.
  induction tr1 as [|[] tr1 IH]; cbn; now rewrite ?IH.
Qed.

Lemma nexts_app out1 out2 : nexts (out1 ++ out2) = nexts out1 ++ nexts out2.
Proof.
  induction out1 as [|[] out1 IH]; cbn; now rewrite ?IH.
Qed.


Lemma upstreamErrors_app tr1 tr2 :
  upstreamErrors (tr1 ++ tr2) = upstreamErrors tr1 ++ upstreamErrors tr2.
Proof.
  induction tr1 as [|[] tr1 IH]; cbn; now rewrite ?IH.
Qed.

(** Once the combinator is terminated, a delivery does nothing. *)
Lemma deliver_terminated this s :
  terminated this = true -> deliver recorder s this = (tt, this, []).
Proof.
  intros H. step_cases this s; try discriminate; reflexivity.
Qed.


(** The Terminal state is never left. *)
Lemma terminated_stays this s :
  terminated this = true ->
  terminated (stateOf (deliver recorder s this)) = true.
Proof. intros H. now rewrite (deliver_terminated this s H). Qed.

(** What one delivery can do to a latch that is full afterwards: either it
    was a source value, just latched, or the delivery left the latch as
    it was and was silent. *)
Lemma latch_full_after this s :
  terminated (stateOf (deliver recorder s this)) = false ->
  hasValue (stateOf (deliver recorder s this)) = true ->
  outputOf (deliver recorder s this) = [] /\
  terminated this = false /\
  ((s = SourceNext (value (stateOf (deliver recorder s this)))) \/
   (sourceValues [s] = [] /\ hasValue this = true /\
    value (stateOf (deliver recorder s this)) = value this)).
Proof.
  intros Ht Hh.
  step_cases this s; try discriminate; repeat split; auto 6.
Qed.

(** A full latch holds the last value the source delivered, and nothing
    went downstream since that value came in. *)
Lemma latched_is_latest tr :
  terminated (after tr) = false ->
  hasValue (after tr) = true ->
  exists pre post,
    tr = pre ++ SourceNext (value (after tr)) :: post /\
    sourceValues post = [] /\
    downstream tr = downstream pre.
Proof.
  induction tr as [|s tr IH] using rev_ind; intros Ht Hh.
  - discriminate.
  - rewrite after_snoc in Ht, Hh |- *. rewrite downstream_snoc.
    destruct (latch_full_after _ _ Ht Hh) as (Hout & Ht' & [Hs | (Hs & Hh' & Hv)]).
    + exists tr, []. rewrite Hout, app_nil_r. rewrite <- Hs. auto.
    + destruct (IH Ht' Hh') as (pre & post & Htr & Hpost & Hdown).
      exists pre, (post ++ [s]). rewrite Hout, app_nil_r, Hv.
      split; [|split].
      * rewrite Htr at 1. now rewrite <- app_assoc.
      * rewrite sourceValues_app, Hpost, Hs. reflexivity.
      * exact Hdown.
Qed.

(** What the emission routine does, the consumer being the recorder. *)
Lemma emitValue_recorder this :
  emitValue (@recorder T E) this =
  if hasValue this
  then (tt, set_hasValue false this, [Next (value this)])
  else (tt, this, []).
Proof.
  destruct this as [v [|] t n]; reflexivity.
Qed.

(** A tick of the notifier goes downstream with at most the latch. *)
Lemma tick_output this (n : N) :
  outputOf (deliver recorder (@NotifierNext T N E n) this) = [] \/
  (outputOf (deliver recorder (@NotifierNext T N E n) this) = [Next (value this)] /\
   terminated this = false /\ hasValue this = true).
Proof.
  destruct this as [v [|] [|] [|]]; unfold_methods; auto.
Qed.

Lemma runFrom_source_values (vs : list (js T)) : forall this,
  terminated this = false ->
  runFrom this (map (@SourceNext T N E) vs) =
  (tt,
   match vs with
   | [] => this
   | _ => set_hasValue true (set_value (last vs undefined) this)
   end, []).
Proof.
  induction vs as [|v vs IH]; intros this Ht.
  - reflexivity.
  - unfold runFrom in *. cbn [map deliverAll]. unfold bind at 1.
    destruct this as [v0 h t n]. cbn in Ht. subst t.
    unfold_methods. rewrite IH by reflexivity.
    destruct vs; reflexivity.
Qed.

(** C1. Whatever signals came before, a tick of the notifier adds at most
    one call to the downstream consumer; when it adds one, it is a "next"
    with the last value the source delivered, and nothing went
    downstream since that value came in. After the source values
    [v1 ... vk, v] a tick sends exactly [v]. *)
Theorem tick_emits_latest_source_value :
  (forall tr (n : N),
     exists emitted,
       downstream (tr ++ [NotifierNext n]) = downstream tr ++ emitted /\
       (emitted = [] \/
        exists v pre post,
          emitted = [Next v] /\
          tr = pre ++ SourceNext v :: post /\
          sourceValues post = [] /\
          downstream tr = downstream pre)) /\
  (forall (vs : list (js T)) (v : js T) (n : N),
     downstream (map (@SourceNext T N E) (vs ++ [v]) ++ [NotifierNext n]) =
     [Next v]).
Proof.
  split.
  - intros tr n. rewrite downstream_snoc.
    eexists. split; [reflexivity|].
    destruct (tick_output (after tr) n) as [Hnone | (Hone & Ht & Hh)].
    + now left.
    + right. destruct (latched_is_latest tr Ht Hh) as (pre & post & H1 & H2 & H3).
      exists (value (after tr)), pre, post. auto.
  - intros vs v n. rewrite downstream_snoc. unfold downstream, after.
    rewrite runFrom_source_values by reflexivity.
    rewrite last_last. destruct (vs ++ [v]) eqn:Hvs.
    + now destruct vs.
    + reflexivity.
Qed.

(** *** The latch invariant *)

Lemma pending_app (h1 h2 : list (Observation T)) :
  pending (h1 ++ h2) = fold_left (@pendingStep T) h2 (pending h1).
Proof. unfold pending. apply fold_left_app. Qed.

Lemma history_app tr1 : forall this tr2,
  history (tr1 ++ tr2) this =
  history tr1 this ++ history tr2 (stateOf (runFrom this tr1)).
Proof.
  induction tr1 as [|s tr1 IH]; intros this tr2.
  - reflexivity.
  - cbn [app history]. rewrite IH, stateOf_cons. now rewrite app_assoc.
Qed.

Lemma history_snoc tr s :
  history (tr ++ [s]) newSampleSubscriber =
  history tr newSampleSubscriber ++
  observe s (outputOf (deliver recorder s (after tr))).
Proof. rewrite history_app. cbn [history]. now rewrite app_nil_r. Qed.

(** The invariant read off the flag. *)
Lemma Latch_by_flag this (h : list (Observation T)) :
  Latch this h <->
  if hasValue this
  then exists older, pending h = older ++ [value this]
  else pending h = [].
Proof.
  unfold Latch. destruct (hasValue this); split.
  - intros [_ H]. now apply H.
  - intros [older H]. split; [|now exists older].
    split; [|reflexivity]. intros _. rewrite H. now destruct older.
  - intros [H _]. destruct (pending h); [reflexivity|].
    assert (false = true) by (apply H; discriminate). discriminate.
  - intros H. rewrite H. split; [|discriminate].
    split; [discriminate|]. intros C. now contradiction C.
Qed.

Lemma next_keeps_Latch this (h : list (Observation T)) (v : js T) :
  Latch this h ->
  Latch (stateOf (@_next T E v this)) (h ++ [Received v]).
Proof.
  intros _. apply Latch_by_flag. rewrite pending_app.
  destruct this as [v0 hv t n]. cbn. now exists (pending h).
Qed.

Lemma emitValue_keeps_Latch this (h : list (Observation T)) :
  Latch this h ->
  Latch (stateOf (emitValue (@recorder T E) this))
        (h ++ map Forwarded (nexts (outputOf (emitValue (@recorder T E) this)))).
Proof.
  intros H. rewrite emitValue_recorder.
  destruct this as [v0 [|] t n]; cbn.
  - apply Latch_by_flag. now rewrite pending_app.
  - now rewrite app_nil_r.
Qed.

Lemma deliver_keeps_Latch this s (h : list (Observation T)) :
  terminated (stateOf (deliver recorder s this)) = false ->
  Latch this h ->
  Latch (stateOf (deliver recorder s this))
        (h ++ observe s (outputOf (deliver recorder s this))).
Proof.
  intros Ht H. apply Latch_by_flag. apply Latch_by_flag in H.
  rewrite pending_app. unfold observe.
  step_cases this s; try discriminate; cbn; auto;
    now exists (pending h).
Qed.

(** C2. With the history of a subscription kept beside the subscriber
    (the source values that came in, the values that went downstream), the
    invariant [Latch] says: [hasValue] is true exactly when some source
    value came in since the start or since the last emission and was not
    forwarded yet, and then [value] is the last of them. It holds of a new
    subscriber, each of [_next], [emitValue], [notifyNext] and
    [notifyComplete] keeps it, and so it holds after every sequence of
    signals of a subscription that is not terminated. *)
Theorem latch_invariant :
  Latch (@newSampleSubscriber T) [] /\
  (forall this h (v : js T),
     Latch this h ->
     Latch (stateOf (@_next T E v this)) (h ++ [Received v])) /\
  (forall this h,
     Latch this h ->
     Latch (stateOf (emitValue (@recorder T E) this))
           (h ++ map Forwarded (nexts (outputOf (emitValue (@recorder T E) this))))) /\
  (forall this h,
     Latch this h ->
     Latch (stateOf (notifyNext (@recorder T E) this))
           (h ++ map Forwarded (nexts (outputOf (notifyNext (@recorder T E) this))))) /\
  (forall this h,
     Latch this h ->
     Latch (stateOf (notifyComplete (@recorder T E) this))
           (h ++ map Forwarded (nexts (outputOf (notifyComplete (@recorder T E) this))))) /\
  (forall tr,
     terminated (after tr) = false ->
     Latch (after tr) (history tr newSampleSubscriber)).
Proof.
  split; [|split; [|split; [|split; [|split]]]].
  - apply Latch_by_flag. reflexivity.
  - apply next_keeps_Latch.
  - apply emitValue_keeps_Latch.
  - apply emitValue_keeps_Latch.
  - apply emitValue_keeps_Latch.
  - induction tr as [|s tr IH] using rev_ind; intros Ht.
    + apply Latch_by_flag. reflexivity.
    + rewrite history_snoc, after_snoc. rewrite after_snoc in Ht.
      apply deliver_keeps_Latch; [exact Ht|]. apply IH.
      destruct (terminated (after tr)) eqn:Hprev; [|reflexivity].
      now rewrite (terminated_stays (after tr) s Hprev) in Ht.
Qed.

(** *** Ticks that find the latch empty *)

(** While the source delivers nothing, the latch stays empty and no
    "next" goes downstream. *)
Lemma silent_source_keeps_latch_empty tr : forall this,
  sourceValues tr = [] ->
  hasValue this = false ->
  hasValue (stateOf (runFrom this tr)) = false /\
  nexts (outputOf (runFrom this tr)) = [].
Proof.
  induction tr as [|s tr IH]; intros this Hsrc Hh.
  - now split.
  - rewrite stateOf_cons, outputOf_cons, nexts_app.
    assert (Hstep : hasValue (stateOf (deliver recorder s this)) = false /\
                    nexts (outputOf (deliver recorder s this)) = [] /\
                    sourceValues tr = []).
    { clear IH. step_cases this s; try discriminate; auto. }
    destruct Hstep as (Hh' & Hout & Hsrc').
    destruct (IH _ Hsrc' Hh') as [IH1 IH2].
    now rewrite Hout, IH2.
Qed.

(** Right after a tick the next tick finds nothing to send. *)
Lemma second_tick_is_silent this (n m : N) :
  outputOf (deliver recorder (@NotifierNext T N E m)
              (stateOf (deliver recorder (@NotifierNext T N E n) this))) = [].
Proof.
  destruct this as [v [|] [|] [|]]; reflexivity.
Qed.

(** The values sent downstream never outnumber the values received. *)
Lemma nexts_bounded tr : forall this,
  length (nexts (outputOf (runFrom this tr))) <=
  length (sourceValues tr) + (if hasValue this then 1 else 0).
Proof.
  induction tr as [|s tr IH]; intros this.
  - cbn. lia.
  - rewrite outputOf_cons, nexts_app, length_app.
    specialize (IH (stateOf (deliver recorder s this))).
    revert IH. generalize (runFrom (stateOf (deliver recorder s this)) tr).
    intros r. step_cases this s; lia.
Qed.

(** C3. A tick that finds no fresh value sends nothing: the emission
    routine does nothing when [hasValue] is false; a tick that comes
    before any source value adds nothing downstream; of two ticks in a
    row the second adds nothing; and over a whole subscription the values
    sent never outnumber the values received, so no latched value is sent
    twice. *)
Theorem tick_without_fresh_value_is_silent :
  (forall this,
     hasValue this = false ->
     emitValue (@recorder T E) this = (tt, this, [])) /\
  (forall tr (n : N),
     sourceValues tr = [] ->
     downstream (tr ++ [NotifierNext n]) = downstream tr) /\
  (forall tr (n m : N),
     downstream (tr ++ [NotifierNext n; NotifierNext m]) =
     downstream (tr ++ [NotifierNext n])) /\
  (forall tr,
     length (nexts (downstream tr)) <= length (sourceValues tr)).
Proof.
  split; [|split; [|split]].
  - intros this H. rewrite emitValue_recorder, H. reflexivity.
  - intros tr n Hsrc. rewrite downstream_snoc.
    destruct (tick_output (after tr) n) as [-> | (_ & _ & Hh)].
    + apply app_nil_r.
    + unfold after in Hh.
      destruct (silent_source_keeps_latch_empty tr newSampleSubscriber Hsrc eq_refl)
        as [Hempty _].
      rewrite Hempty in Hh. discriminate.
  - intros tr n m.
    change [NotifierNext n; NotifierNext m]
      with ([@NotifierNext T N E n] ++ [NotifierNext m]).
    rewrite app_assoc, downstream_snoc, after_snoc, second_tick_is_silent.
    apply app_nil_r.
  - intros tr. unfold downstream.
    pose proof (nexts_bounded tr newSampleSubscriber) as H. cbn in H. lia.
Qed.

(** *** Completion of the notifier *)

Lemma completionFlushes_bounded tr : forall this,
  length (completionFlushes tr this) <= if notifierEnded this then 0 else 1.
Proof.
  induction tr as [|s tr IH]; intros this.
  - cbn. destruct (notifierEnded this); lia.
  - cbn [completionFlushes]. rewrite length_app.
    specialize (IH (stateOf (deliver recorder s this))).
    revert IH. generalize (completionFlushes tr).
    intros f. step_cases this s; lia.
Qed.

(** C4. [notifyComplete] and [notifyNext] are the same method body, the
    emission routine: they send the latch when [hasValue] is true and do
    nothing otherwise. Delivered through the nested subscription, the
    notifier's completion sends what a tick would send and leaves the same
    latch, and over a whole subscription the completion of the notifier
    makes at most one downstream call. *)
Theorem notifier_completion_flushes_like_a_tick :
  (forall d : Destination T E,
     notifyComplete d = notifyNext d /\ notifyNext d = emitValue d) /\
  (forall this,
     notifyComplete (@recorder T E) this =
     if hasValue this
     then (tt, set_hasValue false this, [Next (value this)])
     else (tt, this, [])) /\
  (forall this (n : N),
     let completed := deliver recorder (@NotifierComplete T N E) this in
     let ticked := deliver recorder (@NotifierNext T N E n) this in
     outputOf completed = outputOf ticked /\
     value (stateOf completed) = value (stateOf ticked) /\
     hasValue (stateOf completed) = hasValue (stateOf ticked)) /\
  (forall tr, length (completionFlushes tr newSampleSubscriber) <= 1).
Proof.
  split; [|split; [|split]].
  - intros d. split; reflexivity.
  - intros this. apply emitValue_recorder.
  - intros this n. destruct this as [v [|] [|] [|]]; cbn; auto.
  - intros tr. apply (completionFlushes_bounded tr newSampleSubscriber).
Qed.

(** *** Order inside the emission routine *)

Lemma emitValue_empty (d : Destination T E) this :
  hasValue this = false -> emitValue d this = (tt, this, []).
Proof.
  intros H. unfold emitValue, bind, gets. rewrite H. reflexivity.
Qed.

Lemma emitValue_full (d : Destination T E) this :
  hasValue this = true ->
  emitValue d this = next d (value this) (set_hasValue false this).
Proof.
  intros H. unfold emitValue, bind, gets, modify. rewrite H. cbn.
  destruct (next d (value this) (set_hasValue false this)) as [[[] this'] out].
  reflexivity.
Qed.

(** C6. In [emitValue] the flag is cleared before the destination is
    called: whatever the downstream consumer is, its "next" callback is
    entered with the latched value and a subscriber whose [hasValue] is
    already false. So a consumer that has the notifier tick again from
    inside the callback, to any depth, is sent the value once, and the
    emission routine run from inside the callback does nothing. *)
Theorem emitValue_clears_flag_before_forwarding :
  (forall (d : Destination T E) this,
     hasValue this = true ->
     exists entered,
       emitValue d this = next d (value this) entered /\
       hasValue entered = false /\
       value entered = value this) /\
  (forall (depth : nat) this,
     hasValue this = true ->
     notifyNext (reentrant T E depth) this =
     (tt, set_hasValue false this, [Next (value this)])) /\
  (forall (d : Destination T E) this,
     hasValue this = true ->
     emitValue d (set_hasValue false this) = (tt, set_hasValue false this, [])).
Proof.
  split; [|split].
  - intros d this H. exists (set_hasValue false this).
    split; [now apply emitValue_full|]. split; reflexivity.
  - intros depth this H. unfold notifyNext at 1.
    rewrite emitValue_full by exact H.
    destruct depth as [|depth]; cbn [reentrant next]; unfold bind, tell.
    + reflexivity.
    + unfold notifyNext. rewrite emitValue_empty by reflexivity. reflexivity.
  - intros d this _. now apply emitValue_empty.
Qed.

(** *** Completion of the source *)

(** C7. The completion of the source does not run the emission routine:
    it adds no "next" downstream and leaves both fields of the latch as
    they were, so a value latched when the source completes is not sent
    ([SourceNext v; SourceComplete] sends only the completion), whereas
    the completion or a tick of the notifier sends it. *)
Theorem source_completion_does_not_flush :
  (forall tr,
     nexts (downstream (tr ++ [SourceComplete])) = nexts (downstream tr) /\
     value (after (tr ++ [SourceComplete])) = value (after tr) /\
     hasValue (after (tr ++ [SourceComplete])) = hasValue (after tr)) /\
  (forall v : js T,
     downstream [@SourceNext T N E v; SourceComplete] = [Complete]) /\
  (forall v : js T,
     downstream [@SourceNext T N E v; NotifierComplete] = [Next v]) /\
  (forall (v : js T) (n : N),
     downstream [@SourceNext T N E v; NotifierNext n] = [Next v]).
Proof.
  split; [|split; [|split]]; try reflexivity.
  intros tr. rewrite downstream_snoc, after_snoc, nexts_app.
  destruct (after tr) as [v [|] [|] [|]]; cbn; rewrite ?app_nil_r; auto.
Qed.

(** *** Errors *)



(** *** Undefined values and the slot left behind *)

(** Two subscribers that differ at most in a [value] that is not
    latched cannot be told apart downstream. *)
Lemma stale_value_step this1 this2 s :
  hasValue this1 = hasValue this2 ->
  terminated this1 = terminated this2 ->
  notifierEnded this1 = notifierEnded this2 ->
  (hasValue this1 = true -> value this1 = value this2) ->
  outputOf (deliver recorder s this1) = outputOf (deliver recorder s this2) /\
  hasValue (stateOf (deliver recorder s this1)) =
    hasValue (stateOf (deliver recorder s this2)) /\
  terminated (stateOf (deliver recorder s this1)) =
    terminated (stateOf (deliver recorder s this2)) /\
  notifierEnded (stateOf (deliver recorder s this1)) =
    notifierEnded (stateOf (deliver recorder s this2)) /\
  (hasValue (stateOf (deliver recorder s this1)) = true ->
   value (stateOf (deliver recorder s this1)) =
     value (stateOf (deliver recorder s this2))).
Proof.
  destruct this1 as [v1 h1 t1 n1], this2 as [v2 h2 t2 n2]. cbn.
  intros <- <- <- Hv.
  destruct h1, t1, n1, s; unfold_methods;
    repeat split; auto; try discriminate;
    rewrite Hv by reflexivity; reflexivity.
Qed.

Lemma stale_value_unobservable tr : forall this1 this2,
  hasValue this1 = hasValue this2 ->
  terminated this1 = terminated this2 ->
  notifierEnded this1 = notifierEnded this2 ->
  (hasValue this1 = true -> value this1 = value this2) ->
  outputOf (runFrom this1 tr) = outputOf (runFrom this2 tr).
Proof.
  induction tr as [|s tr IH]; intros this1 this2 Hh Ht Hn Hv.
  - reflexivity.
  - rewrite !outputOf_cons.
    destruct (stale_value_step this1 this2 s Hh Ht Hn Hv)
      as (Hout & Hh' & Ht' & Hn' & Hv').
    rewrite Hout. f_equal. now apply IH.
Qed.

(** C10. Only the flag decides whether a value is sent: an [undefined]
    or [null] delivered by the source is latched and sent at the next tick
    as it is; with [hasValue] true the routine sends [value] whatever it
    is, with [hasValue] false it sends nothing whatever [value] holds. The
    routine leaves [value] in place and clears only the flag, and what is
    left in [value] under a false flag has no effect on anything sent
    downstream later. *)
Theorem emission_is_gated_by_flag_alone :
  (forall n : N,
     downstream [@SourceNext T N E undefined; NotifierNext n] = [Next undefined]) /\
  (forall n : N,
     downstream [@SourceNext T N E null; NotifierNext n] = [Next null]) /\
  (forall (v : js T) (t e : bool),
     emitValue (@recorder T E)
       {| value := v; hasValue := true; terminated := t; notifierEnded := e |} =
     (tt, {| value := v; hasValue := false; terminated := t; notifierEnded := e |},
      [Next v])) /\
  (forall (v : js T) (t e : bool),
     emitValue (@recorder T E)
       {| value := v; hasValue := false; terminated := t; notifierEnded := e |} =
     (tt, {| value := v; hasValue := false; terminated := t; notifierEnded := e |},
      [])) /\
  (forall (v1 v2 : js T) (t e : bool) tr,
     outputOf (runFrom
       {| value := v1; hasValue := false; terminated := t; notifierEnded := e |} tr) =
     outputOf (runFrom
       {| value := v2; hasValue := false; terminated := t; notifierEnded := e |} tr)).
Proof.
  split; [|split; [|split; [|split]]]; try reflexivity.
  intros v1 v2 t e tr.
  apply stale_value_unobservable; try reflexivity. discriminate.
Qed.

(** *** Order of the two subscriptions *)

Lemma runFrom_eta this tr :
  runFrom this tr = (tt, stateOf (runFrom this tr), outputOf (runFrom this tr)).
Proof. destruct (runFrom this tr) as [[[] this'] out]. reflexivity. Qed.

Lemma runFrom_app this tr1 tr2 :
  runFrom this (tr1 ++ tr2) =
  (tt, stateOf (runFrom (stateOf (runFrom this tr1)) tr2),
   outputOf (runFrom this tr1) ++
   outputOf (runFrom (stateOf (runFrom this tr1)) tr2)).
Proof.
  rewrite (runFrom_eta this (tr1 ++ tr2)), stateOf_app, outputOf_app.
  reflexivity.
Qed.

Lemma handled_state_cons (ev : Event T N E) (evs : list (Event T N E)) this :
  stateOf (handleAll (ev :: evs) this) =
  stateOf (handleAll evs (stateOf (handle ev this))).
Proof.
  cbn [handleAll]. unfold bind at 1.
  destruct (handle ev this) as [[u this1] out1].
  change (stateOf (u, this1, out1)) with this1.
  destruct (handleAll evs this1) as [[u' this2] out2].
  reflexivity.
Qed.

Lemma handled_output_cons (ev : Event T N E) (evs : list (Event T N E)) this :
  outputOf (handleAll (ev :: evs) this) =
  outputOf (handle ev this) ++
  outputOf (handleAll evs (stateOf (handle ev this))).
Proof.
  cbn [handleAll]. unfold bind at 1.
  destruct (handle ev this) as [[u this1] out1].
  change (stateOf (u, this1, out1)) with this1.
  destruct (handleAll evs this1) as [[u' this2] out2].
  reflexivity.
Qed.

Lemma handled_state_app (evs1 : list (Event T N E)) : forall this evs2,
  stateOf (handleAll (evs1 ++ evs2) this) =
  stateOf (handleAll evs2 (stateOf (handleAll evs1 this))).
Proof.
  induction evs1 as [|ev evs1 IH]; intros this evs2.
  - reflexivity.
  - cbn [app]. rewrite !handled_state_cons. apply IH.
Qed.

Lemma handled_output_app (evs1 : list (Event T N E)) : forall this evs2,
  outputOf (handleAll (evs1 ++ evs2) this) =
  outputOf (handleAll evs1 this) ++
  outputOf (handleAll evs2 (stateOf (handleAll evs1 this))).
Proof.
  induction evs1 as [|ev evs1 IH]; intros this evs2.
  - reflexivity.
  - cbn [app]. rewrite !handled_output_cons, handled_state_cons, IH.
    now rewrite app_assoc.
Qed.

Lemma handleAll_eta (evs : list (Event T N E)) this :
  handleAll evs this =
  (tt, stateOf (handleAll evs this), outputOf (handleAll evs this)).
Proof. destruct (handleAll evs this) as [[[] this'] out]. reflexivity. Qed.

Lemma handleAll_delivered tr : forall this,
  handleAll (map (@Delivered T N E) tr) this = runFrom this tr.
Proof.
  induction tr as [|s tr IH]; intros this.
  - reflexivity.
  - unfold runFrom in *. cbn [map handleAll deliverAll handle]. unfold bind.
    destruct (deliver recorder s this) as [[u this1] out1].
    now rewrite IH.
Qed.

Lemma handleAll_at_subscription (ms : list (Emission E N)) : forall this,
  handleAll (map (@AtSubscription T N E) ms) this =
  routeInnerAll recorder ms this.
Proof.
  induction ms as [|m ms IH]; intros this.
  - reflexivity.
  - cbn [map handleAll routeInnerAll handle]. unfold bind.
    destruct (routeInner recorder m this) as [[u this1] out1].
    now rewrite IH.
Qed.

Lemma call_is_handled (notifier : Observable E N) (source : Observable E (js T)) :
  call recorder notifier source =
  handleAll
    (map (@Delivered T N E) (map (@fromSource T N E) (onSubscribe source)) ++
     map (@AtSubscription T N E) (onSubscribe notifier))
    newSampleSubscriber.
Proof.
  rewrite handleAll_eta, handled_state_app, handled_output_app.
  rewrite !handleAll_delivered, !handleAll_at_subscription.
  unfold call, subscribe, innerSubscribe, bind, runFrom.
  destruct (deliverAll recorder (map _ (onSubscribe source)) newSampleSubscriber)
    as [[[] this1] out1].
  change (stateOf (tt, this1, out1)) with this1.
  change (outputOf (tt, this1, out1)) with out1.
  destruct (routeInnerAll recorder (onSubscribe notifier) this1)
    as [[[] this2] out2].
  reflexivity.
Qed.

Lemma subscription_is_handled (notifier : Observable E N)
  (source : Observable E (js T)) (later : list (Signal T N E)) :
  subscription notifier source later =
  handleAll (eventsOf notifier source later) newSampleSubscriber.
Proof.
  unfold subscription, eventsOf. rewrite call_is_handled.
  rewrite app_assoc.
  rewrite (handleAll_eta (_ ++ map (@Delivered T N E) later)).
  rewrite handled_state_app, handled_output_app, !handleAll_delivered.
  destruct (handleAll (_ ++ _) newSampleSubscriber) as [[[] this1] out1].
  change (stateOf (tt, this1, out1)) with this1.
  change (outputOf (tt, this1, out1)) with out1.
  destruct (runFrom this1 later) as [[[] this2] out2].
  reflexivity.
Qed.

(** While the source delivers nothing, whatever else is handled leaves
    the latch empty and sends no "next". *)
Lemma silent_events_keep_latch_empty (evs : list (Event T N E)) : forall this,
  deliveredValues evs = [] ->
  hasValue this = false ->
  hasValue (stateOf (handleAll evs this)) = false /\
  nexts (outputOf (handleAll evs this)) = [].
Proof.
  induction evs as [|ev evs IH]; intros this Hsrc Hh.
  - now split.
  - rewrite handled_state_cons, handled_output_cons, nexts_app.
    assert (Hstep : hasValue (stateOf (handle ev this)) = false /\
                    nexts (outputOf (handle ev this)) = [] /\
                    deliveredValues evs = []).
    { clear IH. destruct ev as [m|s]; [destruct m|destruct s];
        destruct this as [v0 [|] [|] [|]];
        unfold handle, routeInner in *; unfold_methods;
        try discriminate; auto. }
    destruct Hstep as (Hh' & Hout & Hsrc').
    destruct (IH _ Hsrc' Hh') as [IH1 IH2].
    now rewrite Hout, IH2.
Qed.

Lemma deliveredValues_at_subscription (ms : list (Emission E N)) :
  deliveredValues (map (@AtSubscription T N E) ms) = [].
Proof. induction ms as [|m ms IH]; cbn; auto. Qed.

Lemma deliveredValues_delivered tr :
  deliveredValues (map (@Delivered T N E) tr) = sourceValues tr.
Proof.
  induction tr as [|[] tr IH]; cbn; now rewrite ?IH.
Qed.

Lemma deliveredValues_app (evs1 evs2 : list (Event T N E)) :
  deliveredValues (evs1 ++ evs2) = deliveredValues evs1 ++ deliveredValues evs2.
Proof.
  induction evs1 as [|[m|[]] evs1 IH]; cbn; now rewrite ?IH.
Qed.

(** C5, as amended. [call] has everything the source delivers while it
    is being subscribed to handled before anything the notifier delivers
    while it is being subscribed to, and a whole subscription handles its
    events in that order. When the source delivers no value while it is
    being subscribed to, the notifier is subscribed to with [hasValue]
    false and whatever it delivers at once sends no "next". In every
    subscription, as long as the source has delivered no "next", no
    "next" has gone downstream. *)
Theorem source_is_subscribed_before_notifier :
  (forall (notifier : Observable E N) (source : Observable E (js T))
          (later : list (Signal T N E)),
     call recorder notifier source =
       handleAll
         (map (@Delivered T N E) (map (@fromSource T N E) (onSubscribe source)) ++
          map (@AtSubscription T N E) (onSubscribe notifier))
         newSampleSubscriber /\
     subscription notifier source later =
       handleAll (eventsOf notifier source later) newSampleSubscriber) /\
  (forall (notifier : Observable E N) (source : Observable E (js T)),
     sourceValues (map (@fromSource T N E) (onSubscribe source)) = [] ->
     hasValue (stateOf (@subscribe T N E recorder source newSampleSubscriber)) = false /\
     nexts (outputOf (call recorder notifier source)) = []) /\
  (forall (notifier : Observable E N) (source : Observable E (js T))
          (later : list (Signal T N E)) (before rest : list (Event T N E)),
     eventsOf notifier source later = before ++ rest ->
     deliveredValues before = [] ->
     nexts (outputOf (handleAll before newSampleSubscriber)) = [] /\
     exists out,
       outputOf (subscription notifier source later) =
       outputOf (handleAll before newSampleSubscriber) ++ out).
Proof.
  split; [|split].
  - intros notifier source later. split.
    + apply call_is_handled.
    + apply subscription_is_handled.
  - intros notifier source Hsrc. split.
    + apply (silent_source_keeps_latch_empty _ newSampleSubscriber Hsrc eq_refl).
    + rewrite call_is_handled.
      apply silent_events_keep_latch_empty; [|reflexivity].
      rewrite deliveredValues_app, deliveredValues_delivered, Hsrc.
      apply deliveredValues_at_subscription.
  - intros notifier source later before rest Hsplit Hsrc. split.
    + apply (silent_events_keep_latch_empty _ newSampleSubscriber Hsrc eq_refl).
    + rewrite subscription_is_handled, Hsplit.
      exists (outputOf (handleAll rest
                (stateOf (handleAll before newSampleSubscriber)))).
      apply handled_output_app.
Qed.

End Properties.

(** *** The values of the notifier *)

Section NotifierValues.

Variables T E N1 N2 : Type.

Lemma deliver_occurrence (N : Type) (s : Signal T N E) (this : SampleSubscriber T) :
  deliver recorder (occurrence s) this = deliver recorder s this.
Proof. destruct s; reflexivity. Qed.

Lemma runFrom_occurrence (N : Type) (tr : list (Signal T N E)) :
  forall this : SampleSubscriber T,
    runFrom this (map (@occurrence T N E) tr) = runFrom this tr.
Proof.
  induction tr as [|s tr IH]; intros this.
  - reflexivity.
  - unfold runFrom in *. cbn [map deliverAll]. unfold bind.
    rewrite deliver_occurrence.
    destruct (deliver recorder s this) as [[u this1] out1].
    now rewrite IH.
Qed.

(** C8. Two runs whose signals agree once the values of the notifier's
    "next" signals are forgotten (the notifiers may even have different
    element types) send the same calls downstream and leave the same
    subscriber. *)
Theorem notifier_values_are_discarded
  (tr1 : list (Signal T N1 E)) (tr2 : list (Signal T N2 E))
  (this : SampleSubscriber T) :
  map (@occurrence T N1 E) tr1 = map (@occurrence T N2 E) tr2 ->
  outputOf (runFrom this tr1) = outputOf (runFrom this tr2) /\
  stateOf (runFrom this tr1) = stateOf (runFrom this tr2).
Proof.
  intros H.
  rewrite <- (runFrom_occurrence N1 tr1 this), <- (runFrom_occurrence N2 tr2 this), H.
  split; reflexivity.
Qed.

End NotifierValues.

(** ** Examples *)

(** The scenarios of the specification. *)
Example three_values_then_tick :
  downstream threeValuesThenTick = [Next (val 3%Z)].
Proof. reflexivity. Qed.

Example timeline_scenario :
  downstream timeline = [Next (val 1%Z); Next (val 2%Z)].
Proof. reflexivity. Qed.

Example ticks_only_scenario : downstream ticksOnly = [].
Proof. reflexivity. Qed.

(** The invariant of C2 at work: a new subscriber, a value coming in, and
    the state after a subscription that latched [undefined] last. *)
Lemma latch_invariant_witness :
  Latch (stateOf (@_next Z nat (val 5%Z) newSampleSubscriber))
        ([] ++ [Received (val 5%Z)]) /\
  terminated (after latchedUndefined) = false /\
  Latch (after latchedUndefined) (history latchedUndefined newSampleSubscriber).
Proof.
  pose proof (latch_invariant Z unit nat) as (Hnew & Hnext & _ & _ & _ & Hrun).
  split; [|split].
  - apply Hnext. exact Hnew.
  - reflexivity.
  - apply Hrun. reflexivity.
Defined.

(** C3 at work: an empty latch, and a tick after ticks only. *)
Lemma tick_without_fresh_value_is_silent_witness :
  hasValue (@newSampleSubscriber Z) = false /\
  emitValue (@recorder Z nat) newSampleSubscriber = (tt, newSampleSubscriber, []) /\
  sourceValues ticksOnly = [] /\
  downstream (ticksOnly ++ [NotifierNext tt]) = downstream ticksOnly.
Proof.
  pose proof (tick_without_fresh_value_is_silent Z unit nat) as (Hempty & Hearly & _).
  split; [reflexivity|]. split; [|split].
  - apply Hempty. reflexivity.
  - reflexivity.
  - apply Hearly. reflexivity.
Defined.

(** C5 at work: a notifier that ticks while it is subscribed to, under a
    source that delivers nothing at subscription and one value later. *)
Lemma source_is_subscribed_before_notifier_witness :
  sourceValues (map (@fromSource Z unit nat) (onSubscribe (silent nat (js Z)))) = [] /\
  hasValue (stateOf (@subscribe Z unit nat recorder (silent nat (js Z))
                       newSampleSubscriber)) = false /\
  nexts (outputOf (call recorder (tickNow nat) (silent nat (js Z)))) = [] /\
  eventsOf (tickNow nat) (silent nat (js Z)) timeline =
    [AtSubscription (emitNext tt)] ++ map (@Delivered Z unit nat) timeline /\
  deliveredValues [@AtSubscription Z unit nat (emitNext tt)] = [] /\
  nexts (outputOf (handleAll [@AtSubscription Z unit nat (emitNext tt)]
                     newSampleSubscriber)) = [].
Proof.
  pose proof (source_is_subscribed_before_notifier Z unit nat) as (_ & Hquiet & Hbefore).
  split; [reflexivity|].
  destruct (Hquiet (tickNow nat) (silent nat (js Z)) eq_refl) as [Hflag Hout].
  split; [exact Hflag|]. split; [exact Hout|]. split; [reflexivity|].
  split; [reflexivity|].
  apply (Hbefore (tickNow nat) (silent nat (js Z)) timeline
           [AtSubscription (emitNext tt)] (map (@Delivered Z unit nat) timeline)
           eq_refl eq_refl).
Defined.

(** The claim C5 as it is written fails when the source delivers a value
    while it is being subscribed to: the notifier, subscribed to next,
    finds the latch full and its tick sends that value. *)
Lemma notifier_tick_at_subscription_sends_current_value :
  hasValue (stateOf (@subscribe Z unit nat recorder (currentValue nat 1)
                       newSampleSubscriber)) = true /\
  outputOf (call recorder (tickNow nat) (currentValue nat 1)) = [Next (val 1%Z)].
Proof. split; reflexivity. Qed.

(** C6 at work: a consumer that has the notifier tick three levels deep
    from inside its callback. *)
Lemma emitValue_clears_flag_before_forwarding_witness :
  hasValue (latched 7) = true /\
  notifyNext (reentrant Z nat 3) (latched 7) =
    (tt, set_hasValue false (latched 7), [Next (val 7%Z)]) /\
  emitValue (reentrant Z nat 3) (set_hasValue false (latched 7)) =
    (tt, set_hasValue false (latched 7), []).
Proof.
  pose proof (emitValue_clears_flag_before_forwarding Z nat) as (_ & Hre & Hin).
  split; [reflexivity|]. split.
  - apply Hre. reflexivity.
  - apply Hin. reflexivity.
Defined.

(** C8 at work: the same subscription under a notifier of numbers and
    under a notifier of flags. *)
Lemma notifier_values_are_discarded_witness :
  map (@occurrence Z nat nat) ticksOfNumbers =
    map (@occurrence Z bool nat) ticksOfFlags /\
  outputOf (runFrom newSampleSubscriber ticksOfNumbers) =
    outputOf (runFrom newSampleSubscriber ticksOfFlags) /\
  stateOf (runFrom newSampleSubscriber ticksOfNumbers) =
    stateOf (runFrom newSampleSubscriber ticksOfFlags).
Proof.
  split; [reflexivity|].
  apply (notifier_values_are_discarded Z nat nat bool
           ticksOfNumbers ticksOfFlags newSampleSubscriber).
  reflexivity.
Defined.


(** ** Properties of sequences of method calls *)

Section CallProperties.

Variables T E : Type.

Implicit Types (this : SampleSubscriber T) (cs : list (MethodCall T)).
Implicit Types (c : MethodCall T) (d : Destination T E).

Lemma invoked_state_cons d c cs this :
  stateOf (invokeAll d (c :: cs) this) =
  stateOf (invokeAll d cs (stateOf (invoke d c this))).
Proof.
  cbn [invokeAll]. unfold bind at 1.
  destruct (invoke d c this) as [[u this1] out1].
  change (stateOf (u, this1, out1)) with this1.
  destruct (invokeAll d cs this1) as [[u' this2] out2].
  reflexivity.
Qed.

Lemma invoked_output_cons d c cs this :
  outputOf (invokeAll d (c :: cs) this) =
  outputOf (invoke d c this) ++
  outputOf (invokeAll d cs (stateOf (invoke d c this))).
Proof.
  cbn [invokeAll]. unfold bind at 1.
  destruct (invoke d c this) as [[u this1] out1].
  change (stateOf (u, this1, out1)) with this1.
  destruct (invokeAll d cs this1) as [[u' this2] out2].
  reflexivity.
Qed.

Lemma invoked_output_app d cs1 : forall this cs2,
  outputOf (invokeAll d (cs1 ++ cs2) this) =
  outputOf (invokeAll d cs1 this) ++
  outputOf (invokeAll d cs2 (stateOf (invokeAll d cs1 this))).
Proof.
  induction cs1 as [|c cs1 IH]; intros this cs2.
  - reflexivity.
  - cbn [app]. rewrite !invoked_output_cons, invoked_state_cons, IH.
    now rewrite app_assoc.
Qed.

Lemma invokeAll_eta d cs this :
  invokeAll d cs this =
  (tt, stateOf (invokeAll d cs this), outputOf (invokeAll d cs this)).
Proof. destruct (invokeAll d cs this) as [[[] this'] out]. reflexivity. Qed.

(** *** Values that come in *)

Lemma next_overwrites (v1 v2 : js T) this :
  @_next T E v2 (stateOf (@_next T E v1 this)) = @_next T E v2 this.
Proof. destruct this as [v h t n]. reflexivity. Qed.

(** X1. Values handed to [_next] one after the other do not queue up:
    whatever the subscriber held before and whoever the consumer is, after
    the values [v1 ... vk, v] the subscriber is as after [v] alone, and
    nothing was sent downstream. *)
Theorem next_last_write_wins d (vs : list (js T)) (v : js T) : forall this,
  invokeAll d (map call_next (vs ++ [v])) this = @_next T E v this.
Proof.
  induction vs as [|v1 vs IH]; intros this.
  - destruct this as [v0 h t n]. reflexivity.
  - rewrite invokeAll_eta, <- app_comm_cons. cbn [map].
    rewrite invoked_state_cons, invoked_output_cons, IH.
    cbn [invoke]. rewrite next_overwrites.
    destruct this as [v0 h t n]. reflexivity.
Qed.

(** *** Values that go out *)

Lemma Subsequence_skip_prefix (A : Type) (p l1 l2 : list A) :
  Subsequence l1 l2 -> Subsequence l1 (p ++ l2).
Proof.
  intros H. induction p as [|x p IH]; [exact H|].
  cbn. now apply sub_skip.
Qed.

Lemma sampled_subsequence_from cs : forall this,
  Subsequence (nexts (outputOf (invokeAll (@recorder T E) cs this)))
              ((if hasValue this then [value this] else []) ++ received cs).
Proof.
  induction cs as [|c cs IH]; intros this.
  - cbn. apply sub_nil.
  - rewrite invoked_output_cons, nexts_app.
    specialize (IH (stateOf (invoke (@recorder T E) c this))).
    destruct this as [v0 [|] t n]; destruct c; cbn in IH |- *;
      try (apply sub_keep; exact IH);
      try (apply sub_skip; exact IH);
      exact IH.
Qed.

(** X2. What the emission routine sends is a selection of what [_next]
    was given: over any sequence of calls on a new subscriber, the values
    sent downstream are the received values with some left out, in the
    order they were received, none sent twice and none made up. On a
    subscriber already in use the value it holds latched may come first. *)
Theorem sampled_values_are_a_subsequence :
  (forall cs,
     Subsequence
       (nexts (outputOf (invokeAll (@recorder T E) cs newSampleSubscriber)))
       (received cs)) /\
  (forall cs this,
     Subsequence
       (nexts (outputOf (invokeAll (@recorder T E) cs this)))
       ((if hasValue this then [value this] else []) ++ received cs)).
Proof.
  split.
  - intros cs. apply (sampled_subsequence_from cs newSampleSubscriber).
  - intros cs this. apply sampled_subsequence_from.
Qed.

Lemma samplings_cons c cs :
  samplings (c :: cs) = (if isSampling c then 1 else 0) + samplings cs.
Proof. unfold samplings. cbn [filter]. now destruct (isSampling c). Qed.

Lemma invoked_output_shape cs : forall this,
  outputOf (invokeAll (@recorder T E) cs this) =
    map (@Next T E) (nexts (outputOf (invokeAll (@recorder T E) cs this))) /\
  length (outputOf (invokeAll (@recorder T E) cs this)) <= samplings cs /\
  length (outputOf (invokeAll (@recorder T E) cs this)) <=
    length (received cs) + (if hasValue this then 1 else 0).
Proof.
  induction cs as [|c cs IH]; intros this.
  - cbn. repeat split; lia.
  - rewrite invoked_output_cons, nexts_app, map_app, length_app, samplings_cons.
    destruct (IH (stateOf (invoke (@recorder T E) c this))) as (IH1 & IH2 & IH3).
    rewrite <- IH1. clear IH1.
    revert IH2 IH3.
    generalize (outputOf (invokeAll (@recorder T E) cs (stateOf (invoke (@recorder T E) c this)))).
    intros out. destruct this as [v0 [|] t n]; destruct c; cbn;
      intros IH2 IH3; repeat split; lia.
Qed.

(** X3. The methods of sample.ts call the destination only through
    [next]: over any sequence of calls, from any subscriber, every
    downstream call is a "next", never an "error" or a "complete"; there
    are at most as many of them as calls that run the emission routine,
    and at most as many as values received, plus one if a value was
    latched at the start. *)
Theorem only_next_is_called_and_bounded cs this :
  outputOf (invokeAll (@recorder T E) cs this) =
    map (@Next T E) (nexts (outputOf (invokeAll (@recorder T E) cs this))) /\
  length (outputOf (invokeAll (@recorder T E) cs this)) <= samplings cs /\
  length (outputOf (invokeAll (@recorder T E) cs this)) <=
    length (received cs) + (if hasValue this then 1 else 0).
Proof. apply invoked_output_shape. Qed.

(** X4. A received value is never lost to the next sampling: whatever
    calls came before and whatever the subscriber held, a value handed to
    [_next] and followed at once by a call that runs the emission routine
    is sent downstream, exactly once, by that call. *)
Theorem value_then_sampling_sends_it cs this (v : js T) c :
  isSampling c = true ->
  outputOf (invokeAll (@recorder T E) (cs ++ [call_next v; c]) this) =
  outputOf (invokeAll (@recorder T E) cs this) ++ [Next v].
Proof.
  intros Hc. rewrite invoked_output_app. f_equal.
  destruct (stateOf (invokeAll (@recorder T E) cs this)) as [v0 h t n].
  destruct c; try discriminate; reflexivity.
Qed.

Lemma documented_from cs : forall this (q : list (js T)),
  (if hasValue this
   then q <> [] /\ last q undefined = value this
   else q = []) ->
  nexts (outputOf (invokeAll (@recorder T E) cs this)) = documentedSampling q cs.
Proof.
  induction cs as [|c cs IH]; intros this q Hq.
  - reflexivity.
  - rewrite invoked_output_cons, nexts_app.
    destruct c.
    + cbn [documentedSampling]. destruct this as [v0 h t n]. cbn.
      apply IH. cbn. split; [now destruct q|apply last_last].
    + destruct this as [v0 [|] t n]; cbn in Hq.
      * destruct Hq as [Hne Hlast]. destruct q as [|x q]; [now contradiction Hne|].
        cbn [documentedSampling]. rewrite Hlast. cbn. f_equal. now apply IH.
      * subst q. cbn. now apply IH.
    + destruct this as [v0 [|] t n]; cbn in Hq.
      * destruct Hq as [Hne Hlast]. destruct q as [|x q]; [now contradiction Hne|].
        cbn [documentedSampling]. rewrite Hlast. cbn. f_equal. now apply IH.
      * subst q. cbn. now apply IH.
    + destruct this as [v0 [|] t n]; cbn in Hq.
      * destruct Hq as [Hne Hlast]. destruct q as [|x q]; [now contradiction Hne|].
        cbn [documentedSampling]. rewrite Hlast. cbn. f_equal. now apply IH.
      * subst q. cbn. now apply IH.
Qed.

(** X8. The subscriber does what the documentation of [sample] says:
    over any sequence of calls on a new subscriber, the values sent
    downstream are those of [documentedSampling], which at each sampling
    takes the most recent of all the values received since the previous
    sampling, if there is any. Keeping one value and a flag loses nothing
    against keeping them all. *)
Theorem subscriber_samples_as_documented cs :
  nexts (outputOf (invokeAll (@recorder T E) cs newSampleSubscriber)) =
  documentedSampling [] cs.
Proof. apply documented_from. reflexivity. Qed.

(** X5. A value that comes in while the destination is being called is
    kept: when the consumer, inside its "next" callback, has the source
    deliver [w], the emission routine still sends the latched value once,
    and it leaves [w] latched with [hasValue] true, so that the next run of
    the routine sends [w]. *)
Theorem value_received_during_forwarding_is_kept this (w : js T) :
  hasValue this = true ->
  outputOf (emitValue (feedback E w) this) = [Next (value this)] /\
  hasValue (stateOf (emitValue (feedback E w) this)) = true /\
  value (stateOf (emitValue (feedback E w) this)) = w /\
  outputOf (emitValue (@recorder T E) (stateOf (emitValue (feedback E w) this))) =
    [Next w].
Proof.
  intros H. destruct this as [v0 h t n]. cbn in H. subst h.
  repeat split; reflexivity.
Qed.

End CallProperties.

(** ** What [call] samples while it subscribes *)

Section SubscriptionTime.

Variables T N E : Type.

Implicit Types (this : SampleSubscriber T).










End SubscriptionTime.

(** X4 at work: a value and a tick after two rounds of sampling. *)
Lemma value_then_sampling_sends_it_witness :
  isSampling (@call_notifyComplete Z) = true /\
  outputOf (invokeAll (@recorder Z nat)
              (twoRounds ++ [call_next (val 9%Z); call_notifyComplete])
              newSampleSubscriber) =
  outputOf (invokeAll (@recorder Z nat) twoRounds newSampleSubscriber) ++
  [Next (val 9%Z)].
Proof.
  split; [reflexivity|].
  apply (value_then_sampling_sends_it Z nat twoRounds newSampleSubscriber
           (val 9%Z) call_notifyComplete).
  reflexivity.
Defined.

(** X5 at work: the consumer has the source deliver 8 while it is sent 7. *)
Lemma value_received_during_forwarding_is_kept_witness :
  hasValue (latched 7) = true /\
  outputOf (emitValue (feedback nat (val 8%Z)) (latched 7)) = [Next (val 7%Z)] /\
  hasValue (stateOf (emitValue (feedback nat (val 8%Z)) (latched 7))) = true /\
  value (stateOf (emitValue (feedback nat (val 8%Z)) (latched 7))) = val 8%Z /\
  outputOf (emitValue (@recorder Z nat)
              (stateOf (emitValue (feedback nat (val 8%Z)) (latched 7)))) =
    [Next (val 8%Z)].
Proof.
  split; [reflexivity|].
  apply (value_received_during_forwarding_is_kept Z nat (latched 7) (val 8%Z)).
  reflexivity.
Defined.

(** Two values, two samplings, one more value: only 2 is sent, by the
    subscriber and by the documentation alike. *)
Example two_rounds_scenario :
  outputOf (invokeAll (@recorder Z nat) twoRounds newSampleSubscriber) =
    [Next (val 2%Z)] /\
  documentedSampling [] twoRounds = [val 2%Z].
Proof. split; reflexivity. Qed.

(** A source that delivers 1 and then completes, or fails, while it is
    being subscribed to: the notifier is subscribed to all the same, and
    its tick at subscription still has the emission routine clear the flag
    and call the destination with 1, after the completion or the error. *)
Example source_ended_at_subscription_is_still_sampled :
  call (@recorder Z nat) (tickNow nat)
       (mkObservable [emitNext (val 1%Z); emitComplete]) =
    (tt, mkSampleSubscriber (val 1%Z) false true false,
     [Complete; Next (val 1%Z)]) /\
  call (@recorder Z nat) (tickNow nat)
       (mkObservable [emitNext (val 1%Z); emitError 4]) =
    (tt, mkSampleSubscriber (val 1%Z) false true false,
     [Error 4; Next (val 1%Z)]).
Proof. split; reflexivity. Qed.
